(** * Verification of async-listen: backpressure gate, retry-sleep adapter
    and error classification.

    The shared [Inner] state of [src/backpressure.rs] is modelled with its
    atomics as 64-bit [usize] values (wrap-around written out) and its
    [Mutex<Option<Waker>>] as a slot plus a lock bit.  Every atomic
    operation and every lock operation is one step; the receiver and the
    other parties ([Token::drop], [Sender::set_limit], [Sender::token]) are
    threads whose program counters sit between those steps, so an
    interleaving is a list of scheduling choices. *)

From Stdlib Require Import ZArith List String Bool Lia.
Import ListNotations.

(** [std::task::Poll]. *)
Inductive Poll (A : Type) : Type :=
| Ready (a : A)
| Pending.
Arguments Ready {A} a.
Arguments Pending {A}.

Module Backpressure.

Local Open Scope Z_scope.

Definition usize_modulus : Z := 2 ^ 64.

(** Wrap-around of [AtomicUsize::fetch_add] / [fetch_sub]. *)
Definition wrap (x : Z) : Z := x mod usize_modulus.

Definition usize_ok (x : Z) : Prop := 0 <= x < usize_modulus.

(** A waker is identified by the task it wakes. *)
Definition Waker := nat.

(** [struct Inner]: [active], [limit], and [task : Mutex<Option<Waker>>]
    split into the slot [task] and the lock bit [locked].  [woken] records
    every call of [Waker::wake], in order. *)
Record Inner := mkInner {
  active : Z;
  limit : Z;
  task : option Waker;
  locked : bool;
  woken : list Waker
}.

Definition set_active (a : Z) (s : Inner) : Inner :=
  mkInner a (limit s) (task s) (locked s) (woken s).
Definition set_limit_field (l : Z) (s : Inner) : Inner :=
  mkInner (active s) l (task s) (locked s) (woken s).
Definition set_task (t : option Waker) (s : Inner) : Inner :=
  mkInner (active s) (limit s) t (locked s) (woken s).
Definition set_locked (b : bool) (s : Inner) : Inner :=
  mkInner (active s) (limit s) (task s) b (woken s).

(** ** Atomic operations on [Inner] *)

(** [active.fetch_add(1, SeqCst)]: returns the old value. *)
Definition fetch_add_active (s : Inner) : Z * Inner :=
  (active s, set_active (wrap (active s + 1)) s).

(** [active.fetch_sub(1, SeqCst)]: returns the old value. *)
Definition fetch_sub_active (s : Inner) : Z * Inner :=
  (active s, set_active (wrap (active s - 1)) s).

(** [limit.swap(new_limit, SeqCst)]: returns the old value. *)
Definition swap_limit (n : Z) (s : Inner) : Z * Inner :=
  (limit s, set_limit_field n s).

(** [task.try_lock()]: [None] is [Err(TryLockError::WouldBlock)]. *)
Definition try_lock (s : Inner) : option Inner :=
  if locked s then None else Some (set_locked true s).

(** Dropping the [MutexGuard]. *)
Definition unlock (s : Inner) : Inner := set_locked false s.

(** [guard.take().map(|w| w.wake())]. *)
Definition take_and_wake (s : Inner) : Inner :=
  match task s with
  | None => s
  | Some w => mkInner (active s) (limit s) None (locked s) (woken s ++ [w])
  end.

(** [*guard = Some(cx.waker().clone())]. *)
Definition store_waker (w : Waker) (s : Inner) : Inner := set_task (Some w) s.

(** ** The receiver: [Receiver::poll] (reached from [HasCapacity::poll]
    and [Backpressure::poll_next]). *)

Inductive RecvPc :=
| RLoadActive                 (* loop head: active.load(Acquire) *)
| RLoadLimit (a : Z)          (* limit.load(Acquire); if active < limit break *)
| RTryLock                    (* self.inner.task.try_lock() *)
| RStore                      (* *guard = Some(waker) *)
| RUnlock                     (* guard dropped on return Poll::Pending *)
| RDone (p : Poll unit).      (* returned *)

Definition recv_step (w : Waker) (pc : RecvPc) (s : Inner)
  : option (RecvPc * Inner) :=
  match pc with
  | RLoadActive => Some (RLoadLimit (active s), s)
  | RLoadLimit a =>
      if a <? limit s then Some (RDone (Ready tt), s) else Some (RTryLock, s)
  | RTryLock =>
      match try_lock s with
      | Some s' => Some (RStore, s')
      | None => Some (RLoadActive, s)          (* WouldBlock: continue *)
      end
  | RStore => Some (RUnlock, store_waker w s)
  | RUnlock => Some (RDone Pending, unlock s)
  | RDone _ => None
  end.

(** ** The other parties: [Sender::token] / [Receiver::token],
    [Token::drop] and [Sender::set_limit].  The wake-up tail
    ([try_lock], [take], [wake], guard drop) is common to the last two. *)

Inductive ThreadPc :=
| TokenNew                      (* active.fetch_add(1) *)
| DropFetchSub                  (* Token::drop: active.fetch_sub(1) *)
| DropLoadLimit (old_ref : Z)   (* limit.load(); if old_ref == limit *)
| SetLimitSwap (new_limit : Z)  (* Sender::set_limit: limit.swap(new) *)
| WakeTryLock                   (* task.try_lock() *)
| WakeTake                      (* guard.take().map(|w| w.wake()) *)
| WakeUnlock                    (* guard dropped *)
| Finished.

Definition thread_step (pc : ThreadPc) (s : Inner) : option (ThreadPc * Inner) :=
  match pc with
  | TokenNew => Some (Finished, snd (fetch_add_active s))
  | DropFetchSub =>
      let (old_ref, s') := fetch_sub_active s in Some (DropLoadLimit old_ref, s')
  | DropLoadLimit old_ref =>
      if old_ref =? limit s then Some (WakeTryLock, s) else Some (Finished, s)
  | SetLimitSwap n =>
      let (old_limit, s') := swap_limit n s in
      if old_limit <? n then Some (WakeTryLock, s') else Some (Finished, s')
  | WakeTryLock =>
      match try_lock s with
      | Some s' => Some (WakeTake, s')
      | None => Some (Finished, s)             (* WouldBlock: nothing *)
      end
  | WakeTake => Some (WakeUnlock, take_and_wake s)
  | WakeUnlock => Some (Finished, unlock s)
  | Finished => None
  end.

(** Running one party alone until it finishes. *)
Fixpoint run_thread (fuel : nat) (pc : ThreadPc) (s : Inner) : ThreadPc * Inner :=
  match fuel with
  | O => (pc, s)
  | S f =>
      match thread_step pc s with
      | None => (pc, s)
      | Some (pc', s') => run_thread f pc' s'
      end
  end.

(** The operations, each run without interference. *)

(** [Sender::token]. *)
Definition sender_token (s : Inner) : Inner := snd (fetch_add_active s).

(** [Receiver::token] (same body as [Sender::token]). *)
Definition receiver_token (s : Inner) : Inner := snd (fetch_add_active s).

(** [Token::drop]. *)
Definition token_drop (s : Inner) : Inner := snd (run_thread 5 DropFetchSub s).

(** [Sender::set_limit]. *)
Definition set_limit (new_limit : Z) (s : Inner) : Inner :=
  snd (run_thread 5 (SetLimitSwap new_limit) s).

(** ** The whole system: one receiver polling with waker [recv_waker],
    and any number of other parties, interleaved step by step. *)

Definition recv_waker : Waker := 0%nat.

Record Sys := mkSys {
  shared : Inner;
  receiver : RecvPc;
  threads : list ThreadPc
}.

Inductive Choice := CRecv | CThread (i : nat).

Fixpoint replace_nth {A} (l : list A) (i : nat) (x : A) : list A :=
  match l, i with
  | [], _ => []
  | _ :: r, O => x :: r
  | y :: r, S j => y :: replace_nth r j x
  end.

(** One scheduling decision. *)
Definition sched (c : Choice) (S : Sys) : option Sys :=
  match c with
  | CRecv =>
      match recv_step recv_waker (receiver S) (shared S) with
      | Some (pc', s') => Some (mkSys s' pc' (threads S))
      | None => None
      end
  | CThread i =>
      match nth_error (threads S) i with
      | Some pc =>
          match thread_step pc (shared S) with
          | Some (pc', s') => Some (mkSys s' (receiver S) (replace_nth (threads S) i pc'))
          | None => None
          end
      | None => None
      end
  end.

(** An interleaving. *)
Fixpoint exec (cs : list Choice) (S : Sys) : option Sys :=
  match cs with
  | [] => Some S
  | c :: r => match sched c S with Some S' => exec r S' | None => None end
  end.

(** A party's program counter is at a point where it starts an operation
    (it holds no lock). *)
Definition thread_start (pc : ThreadPc) : bool :=
  match pc with
  | TokenNew | DropFetchSub | SetLimitSwap _ | Finished => true
  | _ => false
  end.

(** Start of a system run: the receiver enters [Receiver::poll], the other
    parties enter their operations, nobody holds the lock. *)
Definition initial (S : Sys) : Prop :=
  receiver S = RLoadActive /\ forall pc, In pc (threads S) -> thread_start pc = true.

(** [initial] also requires the lock to be free. *)
Definition initial_state (S : Sys) : Prop := initial S /\ locked (shared S) = false.

(** Nothing can run any more: every party returned. *)
Definition quiescent (S : Sys) : Prop :=
  (exists p, receiver S = RDone p) /\ forall pc, In pc (threads S) -> pc = Finished.

(** ** Whole operations run one after another (a single task). *)

(** [Receiver::poll] run on its own: no other party steps meanwhile. *)
Fixpoint run_recv (fuel : nat) (w : Waker) (pc : RecvPc) (s : Inner) : RecvPc * Inner :=
  match fuel with
  | O => (pc, s)
  | S f =>
      match recv_step w pc s with
      | None => (pc, s)
      | Some (pc', s') => run_recv f w pc' s'
      end
  end.

(** [HasCapacity::poll] / [Receiver::poll] with waker [w]. *)
Definition receiver_poll (w : Waker) (s : Inner) : RecvPc * Inner :=
  run_recv 5 w RLoadActive s.

(** [backpressure::new(initial_limit)]: the shared [Inner]. *)
Definition new_inner (initial_limit : Z) : Inner :=
  mkInner 0 initial_limit None false [].

(** The token handed out with an item (it only holds the [Arc<Inner>]). *)
Inductive Token := Token_new.

Section Streams.

Variable I St : Type.
(** The wrapped stream [S: Stream<Item=I>]. *)
Variable poll_src : St -> Poll (option I) * St.

(** [Backpressure::poll_next]: the gate first, then the source.  [None]:
    the gate is still spinning on a lock held by another party. *)
Definition bp_poll_next (w : Waker) (s : Inner) (st : St)
  : option (Poll (option I) * Inner * St) :=
  match receiver_poll w s with
  | (RDone Pending, s') => Some (Pending, s', st)
  | (RDone (Ready _), s') =>
      let (r, st') := poll_src st in Some (r, s', st')
  | _ => None
  end.

(** [BackpressureToken::poll_next]: each item is paired with a token made
    by [Receiver::token]. *)
Definition bpt_poll_next (w : Waker) (s : Inner) (st : St)
  : option (Poll (option (Token * I)) * Inner * St) :=
  match bp_poll_next w s st with
  | Some (Ready (Some conn), s', st') =>
      Some (Ready (Some (Token_new, conn)), receiver_token s', st')
  | Some (Ready None, s', st') => Some (Ready None, s', st')
  | Some (Pending, s', st') => Some (Pending, s', st')
  | None => None
  end.

(** A consumer taking items from [BackpressureToken] and keeping every
    token: it stops at the first [Pending] or at the end of the stream. *)
Fixpoint bpt_collect (fuel : nat) (w : Waker) (s : Inner) (st : St)
  : list (Token * I) * Inner * St :=
  match fuel with
  | O => ([], s, st)
  | S f =>
      match bpt_poll_next w s st with
      | Some (Ready (Some x), s', st') =>
          let '(xs, s'', st'') := bpt_collect f w s' st' in (x :: xs, s'', st'')
      | Some (_, s', st') => ([], s', st')
      | None => ([], s, st)
      end
  end.

End Streams.

Arguments bp_poll_next {I St} poll_src w s st.
Arguments bpt_poll_next {I St} poll_src w s st.
Arguments bpt_collect {I St} poll_src fuel w s st.

(** One whole operation of a single task. *)
Inductive Op :=
| OpToken                (* Sender::token() *)
| OpDrop                 (* drop(token) *)
| OpSetLimit (n : Z)     (* Sender::set_limit(n) *)
| OpPoll.                (* one poll of has_capacity() *)

Definition apply_op (op : Op) (s : Inner) : Inner :=
  match op with
  | OpToken => sender_token s
  | OpDrop => token_drop s
  | OpSetLimit n => set_limit n s
  | OpPoll => snd (receiver_poll recv_waker s)
  end.

(** What each operation needs: a token to drop, a count below [usize::MAX]
    to add one, a [usize] limit. *)
Definition op_ok (op : Op) (s : Inner) : bool :=
  match op with
  | OpToken => (0 <=? active s) && (active s + 1 <? usize_modulus)
  | OpDrop => (0 <? active s) && (active s <? usize_modulus)
  | OpSetLimit n => (0 <=? n) && (n <? usize_modulus)
  | OpPoll => true
  end.

Fixpoint run_ops (ops : list Op) (s : Inner) : option Inner :=
  match ops with
  | [] => Some s
  | op :: r => if op_ok op s then run_ops r (apply_op op s) else None
  end.

End Backpressure.

(** * [src/error.rs]: error classification and hints *)

Module Errors.

Local Open Scope Z_scope.

(** [std::io::ErrorKind]. *)
Inductive ErrorKind :=
| NotFound | PermissionDenied | ConnectionRefused | ConnectionReset
| ConnectionAborted | NotConnected | AddrInUse | AddrNotAvailable
| BrokenPipe | AlreadyExists | WouldBlock | InvalidInput | InvalidData
| TimedOut | WriteZero | Interrupted | Other | UnexpectedEof
| OutOfMemory | Uncategorized.

Scheme Equality for ErrorKind.

(** [std::io::Error], seen through [kind()] and [raw_os_error()]. *)
Record IoError := mkIoError {
  kind : ErrorKind;
  raw_os_error : option Z
}.

(** [is_transient_error]. *)
Definition is_transient_error (e : IoError) : bool :=
  ErrorKind_beq (kind e) ConnectionRefused ||
  ErrorKind_beq (kind e) ConnectionAborted ||
  ErrorKind_beq (kind e) ConnectionReset.

Inductive KnownError := Enfile | Emfile.

(** [struct ErrorHint { error: Option<KnownError> }]. *)
Record ErrorHint := mkErrorHint { error : option KnownError }.

(** [error_hint], on the unix / windows / fuchsia branch of [error_match!]
    (EMFILE = 24, ENFILE = 23). *)
Definition error_hint (e : IoError) : ErrorHint :=
  mkErrorHint
    (match raw_os_error e with
     | Some c => if c =? 24 then Some Emfile
                 else if c =? 23 then Some Enfile
                 else None
     | None => None
     end).

Definition hint_text (h : ErrorHint) : string :=
  match error h with
  | None => ""
  | Some Emfile => "Increase per-process open file limit"
  | Some Enfile => "Increase system open file limit"
  end.

Definition link_hash (h : ErrorHint) : string :=
  match error h with
  | None => ""
  | Some Emfile => "EMFILE"
  | Some Enfile => "ENFILE"
  end.

Definition default_link_base (h : ErrorHint) : string := "https://big.ly/async-err".

(** [ErrorHint::is_empty]: [self.error.is_some()]. *)
Definition is_empty (h : ErrorHint) : bool :=
  match error h with Some _ => true | None => false end.

(** [impl Display for ErrorHint]: the text written by [fmt]. *)
Definition display (h : ErrorHint) : string :=
  match error h with
  | None => ""
  | Some _ => hint_text h ++ " " ++ default_link_base h ++ "#" ++ link_hash h
  end.

End Errors.

(** * [src/sleep.rs] and [src/log.rs]: the retry-sleep and logging stream
    adapters.  Time is a natural number (milliseconds); a stream is a
    state with a [poll_next] function taking the current time. *)

Module Sleep.

Import Errors.

Inductive Result (T E : Type) := Ok (v : T) | Err (e : E).
Arguments Ok {T E} v.
Arguments Err {T E} e.

(** [async_std::task::sleep(d)] created at time [t] is represented by its
    deadline [t + d]; polling it is [Ready] once the deadline has passed. *)
Definition sleep_poll (now deadline : nat) : Poll unit :=
  if Nat.leb deadline now then Ready tt else Pending.

Section Adapters.

Variable I : Type.
Variable St : Type.
(** The wrapped stream [S: Stream<Item=Result<I, io::Error>>]. *)
Variable poll_src : nat -> St -> Poll (option (Result I IoError)) * St.

(** [struct HandleErrors<S>]. *)
Record HandleErrors := mkHandleErrors {
  stream : St;
  sleep_on_warning : nat;
  timeout : option nat
}.

Definition with_stream (h : HandleErrors) (st : St) : HandleErrors :=
  mkHandleErrors st (sleep_on_warning h) (timeout h).
Definition with_timeout (h : HandleErrors) (t : option nat) : HandleErrors :=
  mkHandleErrors (stream h) (sleep_on_warning h) t.

(** [HandleErrors::new]. *)
Definition handle_errors_new (st : St) (d : nat) : HandleErrors :=
  mkHandleErrors st d None.

(** The [loop] of [poll_next]; [fuel] bounds the number of iterations
    ([None]: the loop did not return within [fuel] iterations). *)
Fixpoint he_loop (fuel now : nat) (h : HandleErrors)
  : option (Poll (option I) * HandleErrors) :=
  match fuel with
  | O => None
  | S f =>
      let (r, st') := poll_src now (stream h) in
      let h1 := with_stream h st' in
      match r with
      | Pending => Some (Pending, h1)
      | Ready (Some (Ok v)) => Some (Ready (Some v), h1)
      | Ready None => Some (Ready None, h1)
      | Ready (Some (Err e)) =>
          if is_transient_error e then he_loop f now h1
          else
            let deadline := now + sleep_on_warning h1 in
            match sleep_poll now deadline with
            | Pending => Some (Pending, with_timeout h1 (Some deadline))
            | Ready _ => he_loop f now h1
            end
      end
  end.

(** [HandleErrors::poll_next]. *)
Definition poll_next (fuel now : nat) (h : HandleErrors)
  : option (Poll (option I) * HandleErrors) :=
  match timeout h with
  | Some dl =>
      match sleep_poll now dl with
      | Pending => Some (Pending, h)
      | Ready _ => he_loop fuel now (with_timeout h None)
      end
  | None => he_loop fuel now (with_timeout h None)
  end.

(** [struct LogWarnings<S, F>]: the logger [F: FnMut(&io::Error)] is
    represented by the list of errors it has been called with. *)
Record LogWarnings := mkLogWarnings {
  lw_stream : St;
  logged : list IoError
}.

(** [LogWarnings::poll_next]. *)
Definition lw_poll_next (now : nat) (l : LogWarnings)
  : Poll (option (Result I IoError)) * LogWarnings :=
  let (res, st') := poll_src now (lw_stream l) in
  match res with
  | Ready (Some (Err e)) =>
      if negb (is_transient_error e)
      then (res, mkLogWarnings st' (logged l ++ [e]))
      else (res, mkLogWarnings st' (logged l))
  | _ => (res, mkLogWarnings st' (logged l))
  end.

End Adapters.

Arguments mkHandleErrors {St} stream sleep_on_warning timeout.
Arguments stream {St} h.
Arguments sleep_on_warning {St} h.
Arguments timeout {St} h.
Arguments with_stream {St} h st.
Arguments with_timeout {St} h t.
Arguments handle_errors_new {St} st d.
Arguments he_loop {I St} poll_src fuel now h.
Arguments poll_next {I St} poll_src fuel now h.
Arguments mkLogWarnings {St} lw_stream logged.
Arguments lw_stream {St} l.
Arguments logged {St} l.
Arguments lw_poll_next {I St} poll_src now l.

(** [async_std::stream::from_iter] over a vector of results: never
    pending, ends with [Ready(None)]. *)
Definition from_iter {I : Type} (now : nat) (xs : list (Result I IoError))
  : Poll (option (Result I IoError)) * list (Result I IoError) :=
  match xs with
  | [] => (Ready None, [])
  | x :: r => (Ready (Some x), r)
  end.

(** The executor ([task::block_on] collecting with [stream.next().await]):
    polls the stream, records each item with the time it was emitted, and
    when the stream is pending on its timer sleeps until the deadline. *)
Fixpoint drive {I St : Type} (poll_src : nat -> St -> Poll (option (Result I IoError)) * St)
    (fuel now : nat) (h : HandleErrors St)
  : option (list (nat * I) * HandleErrors St) :=
  match fuel with
  | O => None
  | S f =>
      match poll_next poll_src fuel now h with
      | None => None
      | Some (Ready (Some v), h') =>
          match drive poll_src f now h' with
          | Some (out, h'') => Some ((now, v) :: out, h'')
          | None => None
          end
      | Some (Ready None, h') => Some ([], h')
      | Some (Pending, h') =>
          match timeout h' with
          | Some dl => drive poll_src f (Nat.max now dl) h'
          | None => Some ([], h')
          end
      end
  end.

(** The logging adapter over a vector source, under the retry-sleep
    adapter: [incoming.log_warnings(f).handle_errors(d)]. *)
Definition logged_source {I : Type} :=
  lw_poll_next (@from_iter I).

Definition scenario (te ne : IoError) : list (Result nat IoError) :=
  [Ok 1; Err te; Ok 2; Err ne; Ok 3].

(** The errors the logger is called with: the non-transient ones. *)
Definition nt_errors {I : Type} (xs : list (Result I IoError)) : list IoError :=
  flat_map (fun x => match x with
                     | Err e => if is_transient_error e then [] else [e]
                     | Ok _ => []
                     end) xs.

(** Each success value with the time it is emitted: every non-transient
    error before it delays it by [d]. *)
Fixpoint emissions {I : Type} (d now : nat) (xs : list (Result I IoError)) : list (nat * I) :=
  match xs with
  | [] => []
  | Ok v :: r => (now, v) :: emissions d now r
  | Err e :: r =>
      if is_transient_error e then emissions d now r else emissions d (now + d) r
  end.

(** A consumer collecting a stream that never waits on a timer
    ([tests/log.rs], [collect]). *)
Fixpoint collect {X St : Type} (poll : nat -> St -> Poll (option X) * St)
    (fuel now : nat) (st : St) : option (list X * St) :=
  match fuel with
  | O => None
  | S f =>
      match poll now st with
      | (Ready (Some x), st') =>
          match collect poll f now st' with
          | Some (xs, st'') => Some (x :: xs, st'')
          | None => None
          end
      | (Ready None, st') => Some ([], st')
      | (Pending, _) => None
      end
  end.

End Sleep.

(** * Properties of the backpressure gate *)

Module BackpressureProofs.

Import Backpressure.
Local Open Scope Z_scope.

(** ** Lock ownership: who holds the wait-slot mutex. *)

Definition recv_holds (pc : RecvPc) : nat :=
  match pc with RStore | RUnlock => 1 | _ => 0 end.

Definition thread_holds (pc : ThreadPc) : nat :=
  match pc with WakeTake | WakeUnlock => 1 | _ => 0 end.

Definition holders (S : Sys) : nat :=
  (recv_holds (receiver S) + list_sum (map thread_holds (threads S)))%nat.

(** The mutex is held by exactly the parties in their critical sections,
    and a receiver about to release it has registered its waker. *)
Definition lock_inv (S : Sys) : Prop :=
  holders S = (if locked (shared S) then 1 else 0)%nat /\
  (receiver S = RUnlock -> task (shared S) = Some recv_waker).

(** One token alive, limit 1, the receiver entering [Receiver::poll] and
    the token being dropped on another task. *)
Definition race_start : Sys :=
  mkSys (mkInner 1 1 None false []) RLoadActive [DropFetchSub].

(** The receiver reads [active = 1], [limit = 1] and takes the lock; the
    token drop then decrements [active] to 0, sees [old_ref == limit] and
    finds the lock taken (WouldBlock, skip); the receiver stores its waker
    and returns [Pending] without reading [active] again. *)
Definition race_schedule : list Choice :=
  [CRecv; CRecv; CRecv; CThread 0; CThread 0; CThread 0; CRecv; CRecv].



(** A parked waiter is legitimate when the gate is closed. *)
Definition parked_ok (s : Inner) : Prop :=
  forall w, task s = Some w -> limit s <= active s.

Lemma list_sum_replace_nth (f : ThreadPc -> nat) l i y x :
  nth_error l i = Some y ->
  (list_sum (map f (replace_nth l i x)) + f y =
   list_sum (map f l) + f x)%nat.
Proof.
  revert i; induction l as [|z l IH]; intros [|i] H; simpl in *; try discriminate.
  - injection H as <-; lia.
  - specialize (IH i H); lia.
Qed.

Lemma list_sum_nth_le (f : ThreadPc -> nat) l i y :
  nth_error l i = Some y -> (f y <= list_sum (map f l))%nat.
Proof.
  revert i; induction l as [|z l IH]; intros [|i] H; simpl in *; try discriminate.
  - injection H as <-; lia.
  - specialize (IH i H); lia.
Qed.

Lemma initial_lock_inv S : initial_state S -> lock_inv S.
Proof.
  intros [[Hr Hth] Hl]. unfold lock_inv, holders. rewrite Hr, Hl. simpl.
  split; [|discriminate].
  induction (threads S) as [|pc l IH]; simpl; [reflexivity|].
  rewrite IH by (intros; apply Hth; simpl; auto).
  specialize (Hth pc (or_introl eq_refl)).
  destruct pc; simpl in *; congruence.
Qed.

Lemma sched_lock_inv c S S' : lock_inv S -> sched c S = Some S' -> lock_inv S'.
Proof.
  intros [Hh Hu] Hs. destruct S as [s r th]. unfold holders in Hh; simpl in *.
  destruct c as [|i]; simpl in Hs.
  - destruct r; simpl in Hs; unfold lock_inv, holders.
    + injection Hs as <-; simpl in *; split; [exact Hh|discriminate].
    + destruct (a <? limit s); injection Hs as <-; simpl in *;
        (split; [exact Hh|discriminate]).
    + unfold try_lock in Hs; destruct (locked s) eqn:Hl; injection Hs as <-;
        simpl in *; rewrite ?Hl in *.
      * split; [exact Hh|discriminate].
      * split; [lia|discriminate].
    + injection Hs as <-; simpl in *; split; [exact Hh|reflexivity].
    + injection Hs as <-; simpl in *; split; [|discriminate].
      destruct (locked s); lia.
    + discriminate.
  - destruct (nth_error th i) as [pc|] eqn:Hn; [|discriminate].
    pose proof (list_sum_replace_nth thread_holds th i pc) as Hsum.
    destruct pc; simpl in Hs; unfold lock_inv, holders.
    + injection Hs as <-; simpl.
      specialize (Hsum Finished Hn); simpl in Hsum. split; [lia|exact Hu].
    + injection Hs as <-; simpl.
      specialize (Hsum (DropLoadLimit (active s)) Hn); simpl in Hsum. split; [lia|exact Hu].
    + destruct (old_ref =? limit s); injection Hs as <-; simpl.
      * specialize (Hsum WakeTryLock Hn); simpl in Hsum. split; [lia|exact Hu].
      * specialize (Hsum Finished Hn); simpl in Hsum. try rewrite Hl in Hh. split; [simpl in *; lia|exact Hu].
    + destruct (limit s <? new_limit); injection Hs as <-; simpl.
      * specialize (Hsum WakeTryLock Hn); simpl in Hsum. split; [lia|exact Hu].
      * specialize (Hsum Finished Hn); simpl in Hsum. try rewrite Hl in Hh. split; [simpl in *; lia|exact Hu].
    + unfold try_lock in Hs; destruct (locked s) eqn:Hl; injection Hs as <-; simpl.
      * specialize (Hsum Finished Hn); simpl in Hsum. try rewrite Hl in Hh. split; [|exact Hu]. rewrite Hl; lia.
      * specialize (Hsum WakeTake Hn); simpl in Hsum. try rewrite Hl in Hh. split; [simpl in *; lia|].
        intros ->; simpl in Hh; lia.
    + injection Hs as <-; simpl.
      specialize (Hsum WakeUnlock Hn); simpl in Hsum.
      unfold take_and_wake; destruct (task s) eqn:Ht; simpl.
      * pose proof (list_sum_nth_le thread_holds th i WakeTake Hn) as Hle; simpl in Hle.
        split; [destruct (locked s); lia|]. intros ->; simpl in Hh; destruct (locked s); lia.
      * split; [destruct (locked s); lia|rewrite Ht; exact Hu].
    + injection Hs as <-; simpl.
      specialize (Hsum Finished Hn); simpl in Hsum.
      split; [destruct (locked s); lia|exact Hu].
    + discriminate.
Qed.

Lemma exec_lock_inv cs S0 S : lock_inv S0 -> exec cs S0 = Some S -> lock_inv S.
Proof.
  revert S0; induction cs as [|c cs IH]; intros S0 H Hx; simpl in Hx.
  - injection Hx as <-; exact H.
  - destruct (sched c S0) as [S1|] eqn:Hs; [|discriminate].
    exact (IH S1 (sched_lock_inv c S0 S1 H Hs) Hx).
Qed.

(** ** C2: one poll of the gate.  In every interleaving with other
    parties: the receiver's step that returns [Ready] is exactly the
    comparison of the values it read ([a] for [active], the current
    [limit]) with [a < limit]; it returns [Pending] only when releasing the
    lock under which its waker is stored in the slot; and finding the lock
    contended sends it back to re-reading [active] and [limit].  The value
    of [Ready] is of type [unit]. *)
Theorem receiver_poll_spec S0 cs S S' :
  initial_state S0 -> exec cs S0 = Some S -> sched CRecv S = Some S' ->
  (forall a, receiver S = RLoadLimit a ->
     (receiver S' = RDone (Ready tt) <-> a < limit (shared S)) /\
     (receiver S' = RTryLock <-> ~ a < limit (shared S))) /\
  (receiver S' = RDone (Ready tt) ->
     exists a, receiver S = RLoadLimit a /\ a < limit (shared S)) /\
  (receiver S' = RDone Pending ->
     receiver S = RUnlock /\ locked (shared S) = true /\
     task (shared S) = Some recv_waker /\ task (shared S') = Some recv_waker) /\
  (receiver S = RTryLock -> locked (shared S) = true ->
     receiver S' = RLoadActive /\ shared S' = shared S) /\
  (receiver S = RTryLock -> locked (shared S) = false ->
     receiver S' = RStore /\ locked (shared S') = true).
Proof.
  intros Hi Hx Hs.
  pose proof (exec_lock_inv cs S0 S (initial_lock_inv S0 Hi) Hx) as [Hh Hu].
  destruct S as [s r th]; unfold holders in Hh; simpl in *.
  destruct r; simpl in Hs.
  - injection Hs as <-; simpl.
    repeat split; intros; try discriminate; try (destruct H; discriminate).
  - destruct (a <? limit s) eqn:Hlt; injection Hs as <-; simpl.
    + apply Z.ltb_lt in Hlt.
      split; [intros a' Ha; injection Ha as <-; split; split; intros; try discriminate;
                try tauto; try lia|].
      split; [intros _; exists a; split; [reflexivity|exact Hlt]|].
      repeat split; intros; discriminate.
    + apply Z.ltb_ge in Hlt.
      split; [intros a' Ha; injection Ha as <-; split; split; intros; try discriminate;
                try reflexivity; try lia|].
      repeat split; intros; try discriminate.
  - unfold try_lock in Hs; destruct (locked s) eqn:Hl; injection Hs as <-; simpl.
    + repeat split; intros; try discriminate; try (destruct H; discriminate).
    + repeat split; intros; try discriminate; try (destruct H; discriminate).
  - injection Hs as <-; simpl.
    repeat split; intros; try discriminate; try (destruct H; discriminate).
  - injection Hs as <-; simpl.
    specialize (Hu eq_refl).
    repeat split; intros; try discriminate; try (destruct H; discriminate);
      try exact Hu.
    destruct (locked s); [reflexivity|simpl in Hh; lia].
  - discriminate.
Qed.

Lemma receiver_poll_spec_witness :
  initial_state race_start /\
  exec [CRecv; CRecv; CRecv; CRecv] race_start =
    Some (mkSys (mkInner 1 1 (Some recv_waker) true []) RUnlock [DropFetchSub]) /\
  task (shared (mkSys (mkInner 1 1 (Some recv_waker) true []) RUnlock [DropFetchSub]))
    = Some recv_waker.
Proof.
  assert (Hi : initial_state race_start).
  { split; [split; [reflexivity|]|reflexivity].
    intros pc [<-|[]]; reflexivity. }
  assert (Hx : exec [CRecv; CRecv; CRecv; CRecv] race_start =
    Some (mkSys (mkInner 1 1 (Some recv_waker) true []) RUnlock [DropFetchSub]))
    by reflexivity.
  assert (Hs : sched CRecv (mkSys (mkInner 1 1 (Some recv_waker) true []) RUnlock [DropFetchSub]) =
    Some (mkSys (mkInner 1 1 (Some recv_waker) false []) (RDone Pending) [DropFetchSub]))
    by reflexivity.
  destruct (receiver_poll_spec race_start _ _ _ Hi Hx Hs) as (_ & _ & Hp & _).
  destruct (Hp eq_refl) as (_ & _ & Ht & _).
  split; [exact Hi|split; [exact Hx|exact Ht]].
Defined.

(** ** C1: a missed wake-up.  The interleaving [race_schedule] from
    [race_start] ends with every party returned, the receiver's waker
    parked in the slot, [active < limit], the waker never called, and no
    step left that could call it. *)
Theorem missed_wakeup_race :
  initial_state race_start /\
  exists S,
    exec race_schedule race_start = Some S /\
    quiescent S /\
    receiver S = RDone Pending /\
    task (shared S) = Some recv_waker /\
    active (shared S) < limit (shared S) /\
    ~ In recv_waker (woken (shared S)) /\
    (forall c, sched c S = None).
Proof.
  split.
  { split; [split; [reflexivity|]|reflexivity].
    intros pc [<-|[]]; reflexivity. }
  eexists; split; [vm_compute; reflexivity|].
  split; [split; [eexists; reflexivity|]|].
  { intros pc [<-|[]]; reflexivity. }
  repeat split; try (simpl; lia); try (simpl; tauto).
  intros [|[|[|i]]]; reflexivity.
Qed.

(** ** Token lifecycle and limit changes, each operation running alone. *)

Lemma wrap_small x : usize_ok x -> wrap x = x.
Proof. intros H; unfold wrap; apply Z.mod_small; exact H. Qed.

(** [Sender::token] and [Receiver::token] in range: one more in [active]. *)
Lemma token_new_eq s :
  0 <= active s < usize_modulus - 1 ->
  sender_token s = set_active (active s + 1) s /\
  receiver_token s = set_active (active s + 1) s.
Proof.
  intros Hr.
  assert (Hw : wrap (active s + 1) = active s + 1)
    by (apply wrap_small; unfold usize_ok; lia).
  unfold sender_token, receiver_token, fetch_add_active; simpl.
  rewrite Hw. split; reflexivity.
Qed.

(** [Token::drop] in range, by whether [active] was at the limit. *)
Lemma token_drop_eq s :
  0 < active s < usize_modulus ->
  (active s <> limit s -> token_drop s = set_active (active s - 1) s) /\
  (active s = limit s ->
     token_drop s =
       if locked s then set_active (active s - 1) s
       else unlock (take_and_wake (set_locked true (set_active (active s - 1) s)))).
Proof.
  intros Hr.
  assert (Hw : wrap (active s - 1) = active s - 1)
    by (apply wrap_small; unfold usize_ok; lia).
  destruct s as [a l t k w]; simpl in *.
  unfold token_drop; simpl. rewrite Hw.
  destruct (a =? l) eqn:Heq.
  - apply Z.eqb_eq in Heq; subst l.
    unfold try_lock; simpl.
    split; [intros; lia|intros _].
    destruct k; simpl; [reflexivity|].
    unfold take_and_wake; simpl; destruct t; reflexivity.
  - apply Z.eqb_neq in Heq.
    split; [reflexivity|intros; lia].
Qed.

(** [Sender::set_limit], by whether the limit grows. *)
Lemma set_limit_eq n s :
  (~ limit s < n -> set_limit n s = set_limit_field n s) /\
  (limit s < n ->
     set_limit n s =
       if locked s then set_limit_field n s
       else unlock (take_and_wake (set_locked true (set_limit_field n s)))).
Proof.
  destruct s as [a l t k w]; unfold set_limit; simpl.
  destruct (l <? n) eqn:Hlt.
  - apply Z.ltb_lt in Hlt.
    unfold try_lock; simpl.
    split; [intros; lia|intros _].
    destruct k; simpl; [reflexivity|].
    unfold take_and_wake; simpl; destruct t; reflexivity.
  - apply Z.ltb_ge in Hlt.
    split; [reflexivity|intros; lia].
Qed.

(** ** C3: [Token::drop] decrements [active] by one; after the
    comparison [old_ref == limit] it enters the wake-up tail
    ([try_lock], [take], [wake]) exactly when the pre-decrement value
    equals the limit; otherwise the state differs from the old one only in
    [active] (slot, lock and woken wakers untouched). *)
Theorem token_drop_spec s :
  0 < active s < usize_modulus ->
  active (token_drop s) = active s - 1 /\
  limit (token_drop s) = limit s /\
  fst (run_thread 2 DropFetchSub s) =
    (if active s =? limit s then WakeTryLock else Finished) /\
  (active s <> limit s -> token_drop s = set_active (active s - 1) s) /\
  (active s = limit s ->
     token_drop s =
       if locked s then set_active (active s - 1) s
       else unlock (take_and_wake (set_locked true (set_active (active s - 1) s)))).
Proof.
  intros Hr.
  assert (Hw : wrap (active s - 1) = active s - 1)
    by (apply wrap_small; unfold usize_ok; lia).
  destruct s as [a l t k w]; simpl in *.
  unfold token_drop; simpl. rewrite Hw.
  destruct (a =? l) eqn:Heq.
  - apply Z.eqb_eq in Heq; subst l.
    unfold try_lock; simpl.
    destruct k; simpl.
    + repeat split; intros; try reflexivity; try lia.
    + unfold take_and_wake; simpl; destruct t; simpl;
        repeat split; intros; try reflexivity; try lia.
  - apply Z.eqb_neq in Heq.
    repeat split; intros; try reflexivity; try lia.
Qed.

Lemma token_drop_spec_witness :
  active (token_drop (mkInner 3 3 (Some 7%nat) false [])) = 2 /\
  token_drop (mkInner 3 3 (Some 7%nat) false []) = mkInner 2 3 None false [7%nat].
Proof.
  destruct (token_drop_spec (mkInner 3 3 (Some 7%nat) false [])) as (Ha & _ & _ & _ & He).
  - simpl; unfold usize_modulus; lia.
  - split; [exact Ha|]. rewrite (He eq_refl). reflexivity.
Defined.

(** ** C4: [Sender::set_limit(n)] replaces [limit] by [n], leaves
    [active] (hence every live token) as it was, enters the wake-up tail
    exactly when the old limit is smaller than [n], and otherwise changes
    nothing but [limit]. *)
Theorem set_limit_spec n s :
  active (set_limit n s) = active s /\
  limit (set_limit n s) = n /\
  fst (run_thread 1 (SetLimitSwap n) s) =
    (if limit s <? n then WakeTryLock else Finished) /\
  (~ limit s < n -> set_limit n s = set_limit_field n s) /\
  (limit s < n ->
     set_limit n s =
       if locked s then set_limit_field n s
       else unlock (take_and_wake (set_locked true (set_limit_field n s)))).
Proof.
  destruct s as [a l t k w]; unfold set_limit; simpl.
  destruct (l <? n) eqn:Hlt.
  - apply Z.ltb_lt in Hlt.
    unfold try_lock; simpl.
    destruct k; simpl.
    + repeat split; intros; try reflexivity; try lia.
    + unfold take_and_wake; simpl; destruct t; simpl;
        repeat split; intros; try reflexivity; try lia.
  - apply Z.ltb_ge in Hlt.
    repeat split; intros; try reflexivity; try lia.
Qed.

(** ** C5: [Sender::token] and [Receiver::token] always return a token,
    add one to [active], and change nothing else (no wake-up). *)
Theorem token_new_spec s :
  0 <= active s < usize_modulus - 1 ->
  sender_token s = set_active (active s + 1) s /\
  receiver_token s = set_active (active s + 1) s /\
  active (sender_token s) = active s + 1 /\
  limit (sender_token s) = limit s /\
  task (sender_token s) = task s /\
  locked (sender_token s) = locked s /\
  woken (sender_token s) = woken s.
Proof.
  intros Hr.
  assert (Hw : wrap (active s + 1) = active s + 1)
    by (apply wrap_small; unfold usize_ok; lia).
  unfold sender_token, receiver_token, fetch_add_active; simpl.
  rewrite Hw. repeat split; reflexivity.
Qed.

Lemma token_new_spec_witness :
  sender_token (mkInner 4 2 (Some 1%nat) false []) = mkInner 5 2 (Some 1%nat) false [].
Proof.
  destruct (token_new_spec (mkInner 4 2 (Some 1%nat) false [])) as (H & _).
  - simpl; unfold usize_modulus; lia.
  - rewrite H; reflexivity.
Defined.




End BackpressureProofs.

(** * Properties of the error classifier, hints and stream adapters *)

Module AdapterProofs.

Import Errors Sleep.

(** ** C8: [is_transient_error] holds exactly for the kinds
    [ConnectionRefused], [ConnectionAborted] and [ConnectionReset]; every
    other kind, among them the [Other] / [Uncategorized] kinds that
    EMFILE and ENFILE carry, is non-transient whatever the OS code. *)
Theorem is_transient_error_spec :
  (forall e, is_transient_error e = true <->
     kind e = ConnectionRefused \/ kind e = ConnectionAborted \/
     kind e = ConnectionReset) /\
  (forall e, kind e <> ConnectionRefused -> kind e <> ConnectionAborted ->
     kind e <> ConnectionReset -> is_transient_error e = false) /\
  (forall c, is_transient_error (mkIoError Other c) = false) /\
  (forall c, is_transient_error (mkIoError Uncategorized c) = false).
Proof.
  split; [|split; [|split]].
  - intros [k c]; unfold is_transient_error; simpl.
    destruct k; simpl; split; intros H; try reflexivity; try discriminate;
      try (left; reflexivity); try (right; left; reflexivity);
      try (right; right; reflexivity);
      destruct H as [H|[H|H]]; discriminate.
  - intros [k c]; simpl; intros H1 H2 H3; unfold is_transient_error; simpl.
    destruct k; simpl; congruence.
  - reflexivity.
  - reflexivity.
Qed.

(** ** C9: [ErrorHint::is_empty] is the opposite of emptiness.  For an
    error without an OS code the hint displays as the empty string while
    [is_empty] is [false]; for EMFILE (code 24) the hint displays a text
    while [is_empty] is [true].  In general [is_empty] holds exactly when
    the displayed hint is non-empty. *)
Theorem error_hint_is_empty_inverted :
  is_empty (error_hint (mkIoError Other None)) = false /\
  display (error_hint (mkIoError Other None)) = ""%string /\
  hint_text (error_hint (mkIoError Other None)) = ""%string /\
  link_hash (error_hint (mkIoError Other None)) = ""%string /\
  is_empty (error_hint (mkIoError Other (Some 24%Z))) = true /\
  display (error_hint (mkIoError Other (Some 24%Z))) =
    "Increase per-process open file limit https://big.ly/async-err#EMFILE"%string /\
  (forall e, is_empty (error_hint e) = true <-> display (error_hint e) <> ""%string).
Proof.
  repeat split; try reflexivity.
  - unfold is_empty, display.
    destruct (error_hint e) as [[[|]|]]; simpl; intros H; try discriminate.
  - unfold is_empty, display.
    destruct (error_hint e) as [[[|]|]]; simpl; intros H; try reflexivity.
    exfalso; apply H; reflexivity.
Qed.

(** ** C6: the two states of [HandleErrors].  [timeout = None] is
    Draining, [timeout = Some deadline] is Suspended. *)
Theorem handle_errors_state_machine {I St : Type}
    (poll_src : nat -> St -> Poll (option (Result I IoError)) * St)
    (fuel now : nat) (h : HandleErrors St) :
  (* Suspended, timer not elapsed: nothing emitted, source not polled,
     state unchanged. *)
  (forall dl, timeout h = Some dl -> now < dl ->
     poll_next poll_src fuel now h = Some (Pending, h)) /\
  (* Suspended, timer elapsed: back to Draining, pulling the source. *)
  (forall dl, timeout h = Some dl -> dl <= now ->
     poll_next poll_src fuel now h = he_loop poll_src fuel now (with_timeout h None)) /\
  (* Draining: pulling the source. *)
  (timeout h = None -> poll_next poll_src fuel now h = he_loop poll_src fuel now h) /\
  (* A pulled success value is emitted. *)
  (forall v st', poll_src now (stream h) = (Ready (Some (Ok v)), st') ->
     he_loop poll_src (S fuel) now h = Some (Ready (Some v), with_stream h st')) /\
  (* A transient error is dropped and the next element pulled at once,
     at the same time and without a timer. *)
  (forall e st', poll_src now (stream h) = (Ready (Some (Err e)), st') ->
     is_transient_error e = true ->
     he_loop poll_src (S fuel) now h = he_loop poll_src fuel now (with_stream h st')) /\
  (* A non-transient error starts the timer of the configured duration:
     Suspended until [now + sleep_on_warning]. *)
  (forall e st', poll_src now (stream h) = (Ready (Some (Err e)), st') ->
     is_transient_error e = false -> 0 < sleep_on_warning h ->
     he_loop poll_src (S fuel) now h =
       Some (Pending, with_timeout (with_stream h st') (Some (now + sleep_on_warning h)))) /\
  (* With a zero duration the timer has already elapsed when it is first
     polled, and pulling resumes at once. *)
  (forall e st', poll_src now (stream h) = (Ready (Some (Err e)), st') ->
     is_transient_error e = false -> sleep_on_warning h = 0 ->
     he_loop poll_src (S fuel) now h = he_loop poll_src fuel now (with_stream h st')).
Proof.
  destruct h as [st d t]; unfold poll_next, sleep_poll; simpl.
  split; [|split; [|split; [|split; [|split; [|split]]]]].
  - intros dl -> Hlt. destruct (Nat.leb dl now) eqn:E; [|reflexivity].
    apply Nat.leb_le in E; lia.
  - intros dl -> Hle. apply Nat.leb_le in Hle. rewrite Hle. reflexivity.
  - intros ->. reflexivity.
  - intros v st' Hp. simpl. rewrite Hp. reflexivity.
  - intros e st' Hp Ht. simpl. rewrite Hp, Ht. reflexivity.
  - intros e st' Hp Ht Hd. simpl. rewrite Hp, Ht. unfold sleep_poll; simpl.
    destruct (Nat.leb (now + d) now) eqn:E; [apply Nat.leb_le in E; lia|reflexivity].
  - intros e st' Hp Ht Hd. simpl in Hd; subst d. simpl. rewrite Hp, Ht.
    unfold sleep_poll; simpl. rewrite Nat.add_0_r, Nat.leb_refl. reflexivity.
Qed.

(** ** C7: [Ok 1, Err transient, Ok 2, Err non-transient, Ok 3] through
    the logger and the retry-sleep adapter with cool-down [d], started at
    time [t0]: the items 1, 2, 3 come out, 1 and 2 at [t0], 3 at
    [t0 + d]; the logger was called once, with the non-transient error. *)
Theorem log_and_sleep_scenario (te ne : IoError) (d t0 : nat) :
  is_transient_error te = true -> is_transient_error ne = false ->
  exists h',
    drive logged_source 10 t0
      (handle_errors_new (mkLogWarnings (scenario te ne) []) d) =
      Some ([(t0, 1); (t0, 2); (t0 + d, 3)], h') /\
    logged (stream h') = [ne].
Proof.
  intros Hte Hne.
  unfold handle_errors_new, logged_source, scenario.
  destruct d as [|d'].
  - rewrite Nat.add_0_r.
    repeat progress (rewrite ?Hte, ?Hne, ?Nat.add_0_r, ?Nat.leb_refl; unfold sleep_poll; cbn).
    eexists; split; reflexivity.
  - assert (E : Nat.leb (t0 + S d') t0 = false) by (apply Nat.leb_gt; lia).
    assert (M : Nat.max t0 (t0 + S d') = t0 + S d') by lia.
    repeat progress (rewrite ?Hte, ?Hne, ?E, ?M, ?Nat.leb_refl; unfold sleep_poll; cbn).
    eexists; split; reflexivity.
Qed.

Lemma log_and_sleep_scenario_witness :
  exists h',
    drive logged_source 10 0
      (handle_errors_new
         (mkLogWarnings (scenario (mkIoError ConnectionReset None) (mkIoError Other None)) [])
         100) =
      Some ([(0, 1); (0, 2); (100, 3)], h') /\
    logged (stream h') = [mkIoError Other None].
Proof.
  apply (log_and_sleep_scenario (mkIoError ConnectionReset None) (mkIoError Other None) 100 0);
    reflexivity.
Defined.

End AdapterProofs.

(** * Further properties of the backpressure gate, used by one task *)

Module GateProofs.

Import Backpressure BackpressureProofs.
Local Open Scope Z_scope.

(** A source that always has its next number ready. *)
Definition counting_source (n : nat) : Poll (option nat) * nat := (Ready (Some n), S n).

Lemma receiver_poll_unlocked w s :
  locked s = false ->
  receiver_poll w s =
    if active s <? limit s then (RDone (Ready tt), s)
    else (RDone Pending, store_waker w s).
Proof.
  intros Hl. destruct s as [a l t k wk]; simpl in Hl; subst k.
  unfold receiver_poll; simpl.
  destruct (a <? l); reflexivity.
Qed.

(** [Receiver::poll] without contention: [Ready] with the state untouched
    when [active < limit], otherwise [Pending] with the waker stored in
    the slot and the lock released again. *)
Theorem receiver_poll_uncontended w s :
  locked s = false ->
  receiver_poll w s =
    if active s <? limit s then (RDone (Ready tt), s)
    else (RDone Pending, store_waker w s).
Proof. exact (receiver_poll_unlocked w s). Qed.

Lemma receiver_poll_uncontended_witness :
  receiver_poll 3%nat (new_inner 0) = (RDone Pending, mkInner 0 0 (Some 3%nat) false []).
Proof.
  rewrite (receiver_poll_uncontended 3%nat (new_inner 0) eq_refl). reflexivity.
Defined.

(** Raising the limit releases a parked waiter: it is woken, the slot is
    emptied, and if the new limit is above [active] its next poll is
    [Ready]. *)
Theorem raise_limit_wakes w n s :
  locked s = false -> task s = Some w -> limit s < n ->
  task (set_limit n s) = None /\
  woken (set_limit n s) = woken s ++ [w] /\
  (active s < n -> fst (receiver_poll w (set_limit n s)) = RDone (Ready tt)).
Proof.
  intros Hl Ht Hn. destruct s as [a l t k wk]; simpl in *; subst k t.
  unfold set_limit; simpl.
  replace (l <? n) with true by (symmetry; apply Z.ltb_lt; exact Hn); simpl.
  repeat split. intros Ha.
  rewrite receiver_poll_unlocked by reflexivity; simpl.
  replace (a <? n) with true by (symmetry; apply Z.ltb_lt; exact Ha). reflexivity.
Qed.

Lemma raise_limit_wakes_witness :
  fst (receiver_poll 0%nat (set_limit 1 (mkInner 0 0 (Some 0%nat) false []))) =
    RDone (Ready tt).
Proof.
  refine (proj2 (proj2 (raise_limit_wakes 0%nat 1 (mkInner 0 0 (Some 0%nat) false [])
    eq_refl eq_refl _)) _); simpl; lia.
Defined.

(** Dropping a token when [active] equals the limit releases a parked
    waiter: it is woken, the slot is emptied, and its next poll is
    [Ready]. *)
Theorem drop_at_limit_wakes w s :
  locked s = false -> task s = Some w -> active s = limit s ->
  0 < active s < usize_modulus ->
  active (token_drop s) = active s - 1 /\
  task (token_drop s) = None /\
  woken (token_drop s) = woken s ++ [w] /\
  fst (receiver_poll w (token_drop s)) = RDone (Ready tt).
Proof.
  intros Hl Ht He Hr.
  destruct (token_drop_eq s Hr) as (_ & Heq).
  rewrite (Heq He), Hl.
  destruct s as [a l t k wk]; simpl in *; subst k t l.
  unfold take_and_wake; simpl.
  repeat split.
  rewrite receiver_poll_unlocked by reflexivity; simpl.
  replace (a - 1 <? a) with true by (symmetry; apply Z.ltb_lt; lia). reflexivity.
Qed.

Lemma drop_at_limit_wakes_witness :
  woken (token_drop (mkInner 2 2 (Some 5%nat) false [])) = [5%nat].
Proof.
  refine (proj1 (proj2 (proj2 (drop_at_limit_wakes 5%nat (mkInner 2 2 (Some 5%nat) false [])
    eq_refl eq_refl eq_refl _))));
  simpl; unfold usize_modulus; lia.
Defined.

Lemma apply_op_inv op s :
  locked s = false -> parked_ok s -> op_ok op s = true ->
  locked (apply_op op s) = false /\ parked_ok (apply_op op s).
Proof.
  intros Hl Hp Hok. destruct op as [| |n|]; simpl in Hok.
  - apply andb_prop in Hok as [H0 H1]. apply Z.leb_le in H0. apply Z.ltb_lt in H1.
    destruct (token_new_eq s ltac:(lia)) as (Hs & _).
    simpl. rewrite Hs. destruct s as [a l t k wk]; simpl in *.
    split; [exact Hl|]. intros w Ht. unfold parked_ok, set_active in *; simpl in *. specialize (Hp w Ht). lia.
  - apply andb_prop in Hok as [H0 H1]. apply Z.ltb_lt in H0. apply Z.ltb_lt in H1.
    destruct (token_drop_eq s ltac:(lia)) as (Hne & Heq).
    simpl. destruct (Z.eq_dec (active s) (limit s)) as [E|E].
    + rewrite (Heq E), Hl. destruct s as [a l t k wk]; simpl in *.
      unfold take_and_wake; destruct t; simpl; split; try reflexivity;
        intros w' Hw'; discriminate.
    + rewrite (Hne E). destruct s as [a l t k wk]; simpl in *.
      split; [exact Hl|]. intros w Ht. specialize (Hp w Ht). simpl in *. lia.
  - destruct (set_limit_eq n s) as (Hge & Hlt).
    simpl. destruct (Z_lt_dec (limit s) n) as [E|E].
    + rewrite (Hlt E), Hl. destruct s as [a l t k wk]; simpl in *.
      unfold take_and_wake; destruct t; simpl; split; try reflexivity;
        intros w' Hw'; discriminate.
    + rewrite (Hge E). destruct s as [a l t k wk]; simpl in *.
      split; [exact Hl|]. intros w Ht. specialize (Hp w Ht). simpl in *. lia.
  - simpl. rewrite receiver_poll_unlocked by exact Hl.
    destruct (active s <? limit s) eqn:E; simpl.
    + split; assumption.
    + apply Z.ltb_ge in E. destruct s as [a l t k wk]; simpl in *.
      split; [exact Hl|]. intros w _; exact E.
Qed.

Lemma run_ops_inv ops s s' :
  locked s = false -> parked_ok s -> run_ops ops s = Some s' ->
  locked s' = false /\ parked_ok s'.
Proof.
  revert s; induction ops as [|op ops IH]; intros s Hl Hp Hr; simpl in Hr.
  - injection Hr as <-; split; assumption.
  - destruct (op_ok op s) eqn:Hok; [|discriminate].
    destruct (apply_op_inv op s Hl Hp Hok) as [Hl' Hp'].
    exact (IH _ Hl' Hp' Hr).
Qed.

(** Used from one task only (each operation runs to its end before the
    next starts), starting from [backpressure::new(limit)]: the lock is
    free between operations and a waiter left in the slot always faces
    [active >= limit], so no wake-up is missed. *)
Theorem single_task_no_missed_wakeup initial_limit ops s :
  run_ops ops (new_inner initial_limit) = Some s ->
  locked s = false /\ parked_ok s.
Proof.
  apply run_ops_inv; [reflexivity|].
  intros w H; discriminate.
Qed.

Lemma single_task_no_missed_wakeup_witness :
  run_ops [OpToken; OpPoll; OpDrop; OpPoll; OpToken; OpPoll; OpSetLimit 2; OpPoll]
    (new_inner 1) = Some (mkInner 1 2 None false [0%nat; 0%nat]) /\
  parked_ok (mkInner 1 2 None false [0%nat; 0%nat]).
Proof.
  assert (H : run_ops [OpToken; OpPoll; OpDrop; OpPoll; OpToken; OpPoll; OpSetLimit 2; OpPoll]
    (new_inner 1) = Some (mkInner 1 2 None false [0%nat; 0%nat])) by (vm_compute; reflexivity).
  split; [exact H|].
  exact (proj2 (single_task_no_missed_wakeup 1 _ _ H)).
Defined.

Lemma bpt_poll_unlocked {I St : Type} (poll_src : St -> Poll (option I) * St)
    w s st :
  locked s = false ->
  (limit s <= active s ->
     bpt_poll_next poll_src w s st = Some (Pending, store_waker w s, st)) /\
  (active s < limit s ->
     bpt_poll_next poll_src w s st =
       match poll_src st with
       | (Ready (Some x), st') => Some (Ready (Some (Token_new, x)), receiver_token s, st')
       | (Ready None, st') => Some (Ready None, s, st')
       | (Pending, st') => Some (Pending, s, st')
       end).
Proof.
  intros Hl. unfold bpt_poll_next, bp_poll_next.
  rewrite receiver_poll_unlocked by exact Hl.
  split; intros H.
  - replace (active s <? limit s) with false by (symmetry; apply Z.ltb_ge; exact H).
    reflexivity.
  - replace (active s <? limit s) with true by (symmetry; apply Z.ltb_lt; exact H).
    destruct (poll_src st) as [[[x|]|] st']; reflexivity.
Qed.

(** [BackpressureToken::poll_next] without contention.  With the gate
    closed ([active >= limit]) it returns [Pending] with the waker
    registered, the source not polled and no token made.  With the gate
    open it polls the source once; only an item gets a token (one more in
    [active]); [Pending] or the end of the source leave [active] alone. *)
Theorem backpressure_token_poll {I St : Type} (poll_src : St -> Poll (option I) * St)
    w s st :
  locked s = false ->
  (limit s <= active s ->
     bpt_poll_next poll_src w s st = Some (Pending, store_waker w s, st)) /\
  (active s < limit s ->
     bpt_poll_next poll_src w s st =
       match poll_src st with
       | (Ready (Some x), st') => Some (Ready (Some (Token_new, x)), receiver_token s, st')
       | (Ready None, st') => Some (Ready None, s, st')
       | (Pending, st') => Some (Pending, s, st')
       end).
Proof. exact (bpt_poll_unlocked poll_src w s st). Qed.

Lemma backpressure_token_poll_witness :
  bpt_poll_next counting_source 0%nat (mkInner 2 2 None false []) 7%nat =
    Some (Pending, mkInner 2 2 (Some 0%nat) false [], 7%nat).
Proof.
  refine (proj1 (backpressure_token_poll counting_source 0%nat (mkInner 2 2 None false []) 7%nat
    eq_refl) _).
  simpl; lia.
Defined.

(** A single consumer taking items from [BackpressureToken] and keeping
    all their tokens never holds more than the limit: starting with
    [active <= limit], every item adds exactly one to [active] and
    [active] ends at most at [limit]; the lock is free at the end. *)
Theorem backpressure_token_bound {I St : Type} (poll_src : St -> Poll (option I) * St)
    fuel w s st :
  locked s = false -> 0 <= active s <= limit s -> limit s < usize_modulus ->
  let '(xs, s', _) := bpt_collect poll_src fuel w s st in
  active s' = active s + Z.of_nat (List.length xs) /\ active s' <= limit s /\
  limit s' = limit s /\ locked s' = false.
Proof.
  revert s st; induction fuel as [|f IH]; intros s st Hl Hr Hm; simpl.
  - repeat split; try lia; exact Hl.
  - destruct (bpt_poll_unlocked poll_src w s st Hl) as [Hc Ho].
    destruct (Z_lt_dec (active s) (limit s)) as [E|E].
    + rewrite (Ho E).
      destruct (poll_src st) as [[[x|]|] st'].
      * destruct (token_new_eq s ltac:(lia)) as (_ & Hs).
        specialize (IH (receiver_token s) st').
        rewrite Hs in IH |- *. destruct s as [a l t k wk]; simpl in *.
        specialize (IH Hl ltac:(lia) Hm). unfold set_active in *; simpl in *.
        destruct (bpt_collect poll_src f w (mkInner (a + 1) l t k wk) st')
          as [[xs s''] st''].
        change (Datatypes.length ((Token_new, x) :: xs)) with (S (Datatypes.length xs)); rewrite Nat2Z.inj_succ; destruct IH as (H1 & H2 & H3 & H4); repeat split; try lia; assumption.
      * simpl; repeat split; try lia; exact Hl.
      * simpl; repeat split; try lia; exact Hl.
    + rewrite Hc by lia. destruct s as [a l t k wk]; simpl in *.
      repeat split; try lia; exact Hl.
Qed.

Lemma backpressure_token_bound_witness :
  bpt_collect counting_source 10 0%nat (new_inner 3) 0%nat =
    ([(Token_new, 0%nat); (Token_new, 1%nat); (Token_new, 2%nat)],
     mkInner 3 3 (Some 0%nat) false [], 3%nat) /\
  active (mkInner 3 3 (Some 0%nat) false []) <= limit (new_inner 3).
Proof.
  assert (H := backpressure_token_bound counting_source 10 0%nat (new_inner 3) 0%nat
                 eq_refl ltac:(simpl; lia) ltac:(simpl; unfold usize_modulus; lia)).
  assert (E : bpt_collect counting_source 10 0%nat (new_inner 3) 0%nat =
    ([(Token_new, 0%nat); (Token_new, 1%nat); (Token_new, 2%nat)],
     mkInner 3 3 (Some 0%nat) false [], 3%nat)) by (vm_compute; reflexivity).
  rewrite E in H. split; [exact E|exact (proj1 (proj2 H))].
Defined.

(** With a source that always has an item ready, the consumer gets
    exactly [limit - active] items before the gate closes; it then
    returns [Pending] with its waker registered and [active = limit]. *)
Theorem backpressure_token_saturates {I St : Type} (poll_src : St -> Poll (option I) * St)
    fuel w s st :
  (forall st0, exists x st1, poll_src st0 = (Ready (Some x), st1)) ->
  locked s = false -> 0 <= active s <= limit s -> limit s < usize_modulus ->
  limit s - active s < Z.of_nat fuel ->
  let '(xs, s', _) := bpt_collect poll_src fuel w s st in
  Z.of_nat (List.length xs) = limit s - active s /\ active s' = limit s /\
  task s' = Some w.
Proof.
  intros Hsrc. revert s st; induction fuel as [|f IH]; intros s st Hl Hr Hm Hf.
  - simpl in Hf; lia.
  - simpl.
    destruct (bpt_poll_unlocked poll_src w s st Hl) as [Hc Ho].
    destruct (Z_lt_dec (active s) (limit s)) as [E|E].
    + rewrite (Ho E).
      destruct (Hsrc st) as (x & st' & Hp). rewrite Hp.
      destruct (token_new_eq s ltac:(lia)) as (_ & Hs).
      specialize (IH (receiver_token s) st').
      rewrite Hs in IH |- *. destruct s as [a l t k wk]; simpl in *.
      unfold set_active in *; simpl in *.
      specialize (IH Hl ltac:(lia) Hm ltac:(lia)).
      destruct (bpt_collect poll_src f w (mkInner (a + 1) l t k wk) st')
        as [[xs s''] st''].
      change (Datatypes.length ((Token_new, x) :: xs)) with (S (Datatypes.length xs)).
      rewrite Nat2Z.inj_succ. destruct IH as (H1 & H2 & H3). repeat split; try lia.
      exact H3.
    + rewrite Hc by lia. destruct s as [a l t k wk]; simpl in *.
      repeat split; lia.
Qed.

Lemma backpressure_token_saturates_witness :
  let '(xs, s', _) := bpt_collect counting_source 5 0%nat (new_inner 3) 0%nat in
  Z.of_nat (List.length xs) = 3 /\ active s' = 3 /\ task s' = Some 0%nat.
Proof.
  exact (backpressure_token_saturates counting_source 5 0%nat (new_inner 3) 0%nat
           (fun st0 => ex_intro _ st0 (ex_intro _ (S st0) eq_refl))
           eq_refl ltac:(simpl; lia) ltac:(simpl; unfold usize_modulus; lia)
           ltac:(simpl; lia)).
Defined.

End GateProofs.


(** * Further properties of the hints and the stream adapters *)

Module StreamProofs.

Import Errors Sleep.

(** [error_hint] looks only at the OS error code: code 24 (EMFILE) and
    code 23 (ENFILE) give the two hints, displayed as the text, the base
    link and the hash; every other error, whatever its kind, gives the
    empty hint. *)
Theorem error_hint_display e :
  (raw_os_error e = Some 24%Z ->
     display (error_hint e) =
       "Increase per-process open file limit https://big.ly/async-err#EMFILE"%string /\
     link_hash (error_hint e) = "EMFILE"%string) /\
  (raw_os_error e = Some 23%Z ->
     display (error_hint e) =
       "Increase system open file limit https://big.ly/async-err#ENFILE"%string /\
     link_hash (error_hint e) = "ENFILE"%string) /\
  (raw_os_error e <> Some 23%Z -> raw_os_error e <> Some 24%Z ->
     error (error_hint e) = None /\ display (error_hint e) = ""%string /\
     hint_text (error_hint e) = ""%string /\ link_hash (error_hint e) = ""%string).
Proof.
  destruct e as [k [c|]]; unfold error_hint; simpl.
  - split; [|split].
    + intros H; injection H as ->; split; reflexivity.
    + intros H; injection H as ->; split; reflexivity.
    + intros H23 H24.
      destruct (Z.eqb_spec c 24) as [->|N24]; [contradiction|].
      destruct (Z.eqb_spec c 23) as [->|N23]; [contradiction|].
      repeat split.
  - split; [discriminate|split; [discriminate|]]. intros _ _; repeat split.
Qed.

(** [LogWarnings] passes every item of the source through unchanged and
    calls the logger exactly with the non-transient errors, in order. *)
Theorem log_warnings_passthrough {I : Type} (xs : list (Result I IoError)) log now :
  collect (lw_poll_next from_iter) (S (List.length xs)) now (mkLogWarnings xs log) =
    Some (xs, mkLogWarnings [] (log ++ nt_errors xs)).
Proof.
  revert log; induction xs as [|x r IH]; intros log.
  - simpl. rewrite app_nil_r. reflexivity.
  - change (S (List.length (x :: r))) with (S (S (List.length r))).
    remember (S (List.length r)) as n eqn:En.
    cbn [collect]. unfold lw_poll_next at 1. cbn [from_iter lw_stream].
    destruct x as [v|e].
    + cbn -[collect]. subst n. rewrite IH. reflexivity.
    + destruct (is_transient_error e) eqn:Ht; cbn -[collect]; rewrite Ht; cbn -[collect]; subst n.
      * rewrite IH. reflexivity.
      * rewrite IH, <- app_assoc. reflexivity.
Qed.

(** ** The retry loop over the logged vector source *)

(** More fuel does not change a result the loop has reached. *)
Lemma he_loop_mono {I St : Type} (src : nat -> St -> Poll (option (Result I IoError)) * St)
    f now h r :
  he_loop src f now h = Some r -> he_loop src (S f) now h = Some r.
Proof.
  revert h; induction f as [|f IH]; intros h H; [discriminate|].
  cbn [he_loop] in H.
  remember (S f) as g eqn:Eg.
  cbn [he_loop]. subst g.
  destruct (src now (stream h)) as [[[[v|e]|]|] st'].
  - exact H.
  - destruct (is_transient_error e).
    + apply IH; exact H.
    + destruct (sleep_poll now (now + sleep_on_warning (with_stream h st'))).
      * apply IH; exact H.
      * exact H.
  - exact H.
  - exact H.
Qed.

(** Over a vector source the loop returns within one iteration more than
    the elements left. *)
Lemma logged_he_loop_total {I : Type} f now (h : HandleErrors (LogWarnings (list (Result I IoError)))) :
  List.length (lw_stream (stream h)) < f ->
  exists r, he_loop logged_source f now h = Some r.
Proof.
  revert h; induction f as [|f IH]; intros h Hl; [lia|].
  destruct h as [[xs log] d t]; cbn [stream lw_stream] in Hl.
  destruct xs as [|[v|e] r].
  - eexists; reflexivity.
  - eexists; reflexivity.
  - cbn [he_loop]. unfold logged_source at 1, lw_poll_next at 1. cbn [from_iter stream lw_stream].
    cbn -[he_loop].
    destruct (is_transient_error e) eqn:Ht; cbn -[he_loop]; rewrite ?Ht; cbn -[he_loop].
    + apply IH. cbn. cbn in Hl. lia.
    + destruct (sleep_poll now (now + d)).
      * apply IH. cbn. cbn in Hl. lia.
      * eexists; reflexivity.
Qed.

(** The executor's run depends on the state only through its poll. *)
Lemma drive_poll_eq {I St : Type} (src : nat -> St -> Poll (option (Result I IoError)) * St)
    fuel now h1 h2 :
  poll_next src fuel now h1 = poll_next src fuel now h2 ->
  drive src fuel now h1 = drive src fuel now h2.
Proof.
  destruct fuel as [|f]; [reflexivity|]. intros E.
  cbn [drive]. rewrite E. reflexivity.
Qed.

(** [incoming.log_warnings(f).handle_errors(d)] over a vector source: every
    success value is emitted, in order, delayed by [d] for each
    non-transient error before it (transient errors are skipped at once);
    the logger sees exactly the non-transient errors; the stream then ends
    with the vector consumed and no timer armed. *)
Theorem log_handle_errors_vector {I : Type} (xs : list (Result I IoError)) d now log fuel :
  S (List.length xs) <= fuel ->
  drive logged_source fuel now (handle_errors_new (mkLogWarnings xs log) d) =
    Some (emissions d now xs,
          mkHandleErrors (mkLogWarnings [] (log ++ nt_errors xs)) d None).
Proof.
  unfold handle_errors_new.
  revert now log fuel; induction xs as [|x r IH]; intros now log fuel Hf.
  - destruct fuel as [|f]; [lia|]. cbn. rewrite app_nil_r. reflexivity.
  - destruct fuel as [|f]; [lia|]. cbn [List.length] in Hf.
    destruct x as [v|e].
    + cbn [drive]. change (poll_next logged_source (S f) now _) with
        (Some (Ready (Some v), mkHandleErrors (mkLogWarnings r log) d None)).
      cbv iota beta. rewrite IH by lia. reflexivity.
    + (* the loop retries after the error with the rest of the vector *)
      assert (Hretry : forall now' log',
        poll_next logged_source f now' (mkHandleErrors (mkLogWarnings r log') d None) =
        poll_next logged_source (S f) now' (mkHandleErrors (mkLogWarnings r log') d None)).
      { intros now' log'.
        destruct (logged_he_loop_total f now'
                   (mkHandleErrors (mkLogWarnings r log') d None)) as [res Hres];
          [cbn; lia|].
        unfold poll_next, with_timeout. cbn [timeout stream sleep_on_warning].
        rewrite Hres. symmetry. apply he_loop_mono. exact Hres. }
      cbn [emissions]. unfold nt_errors at 1. cbn [flat_map]. fold (nt_errors r).
      destruct (is_transient_error e) eqn:Ht.
      * cbn [app]. rewrite <- (IH now log (S f)) by lia. apply drive_poll_eq.
        rewrite <- Hretry.
        unfold poll_next at 1, with_timeout. cbn [timeout stream sleep_on_warning].
        cbn [he_loop]. unfold logged_source at 1, lw_poll_next at 1.
        cbn -[he_loop]. rewrite Ht. cbn -[he_loop]. rewrite Ht. reflexivity.
      * destruct d as [|d'].
        -- (* no sleep: the timer is ready at once *)
           rewrite Nat.add_0_r, app_assoc.
           rewrite <- (IH now (log ++ [e]) (S f)) by lia. apply drive_poll_eq.
           rewrite <- Hretry.
           unfold poll_next at 1, with_timeout. cbn [timeout stream sleep_on_warning].
           cbn [he_loop]. unfold logged_source at 1, lw_poll_next at 1.
           cbn -[he_loop]. rewrite Ht. cbn -[he_loop]. rewrite Ht. unfold sleep_poll. rewrite Nat.add_0_r, Nat.leb_refl.
           reflexivity.
        -- (* the error arms the timer; the executor sleeps until it fires *)
           rewrite app_assoc. cbn [drive].
           change (poll_next logged_source (S f) now _) with
             (he_loop logged_source (S f) now
                (mkHandleErrors (mkLogWarnings (Err e :: r) log) (S d') None)).
           cbn [he_loop]. unfold logged_source at 1, lw_poll_next at 1.
           cbn -[he_loop]. rewrite Ht. cbn -[he_loop].
           unfold sleep_poll at 1.
           replace (Nat.leb (now + S d') now) with false
             by (symmetry; apply Nat.leb_gt; lia).
           cbn -[he_loop drive].
           rewrite Ht. cbn -[he_loop drive].
           rewrite Nat.max_r by lia.
           rewrite <- (IH (now + S d') (log ++ [e]) f) by lia. apply drive_poll_eq.
           unfold poll_next, with_timeout. cbn [timeout stream sleep_on_warning].
           unfold sleep_poll. rewrite Nat.leb_refl. reflexivity.
Qed.

Lemma log_handle_errors_vector_witness :
  S (List.length [Err (mkIoError Other (Some 24%Z)); Ok 7;
                  Err (mkIoError ConnectionReset None); Ok 8]) <= 5 /\
  drive logged_source 5 0
    (handle_errors_new
       (mkLogWarnings [Err (mkIoError Other (Some 24%Z)); Ok 7;
                       Err (mkIoError ConnectionReset None); Ok 8] []) 5) =
    Some ([(5, 7); (5, 8)],
          mkHandleErrors (mkLogWarnings [] [mkIoError Other (Some 24%Z)]) 5 None).
Proof.
  split; [cbn; lia|].
  refine (log_handle_errors_vector
            [Err (mkIoError Other (Some 24%Z)); Ok 7;
             Err (mkIoError ConnectionReset None); Ok 8] 5 0 [] 5 _).
  cbn; lia.
Defined.

End StreamProofs.
